(** * glob.cpp: wildcard matching, embedded and verified

    The C++ source is a header-style translation unit of templates over a
    character type [CharT] and a compile-time case-sensitivity tag:

    - [lowercase_bit], [to_lower], [is_alpha]: the character classifier;
    - [wildcard_comparator]: the predicate handed to [std::mismatch];
    - [glob] on iterators: the scan/backtrack loop;
    - the [string_view], generic, [fixed_string] and [glob_me] entry points.

    Characters are integers ([Z]); a character type is described by its
    width and signedness, and every conversion to [CharT] that the source
    performs is written out as [to_CharT].  An iterator range [[it, end)] is
    the list of the characters that remain in it. *)

From Stdlib Require Import ZArith List Bool Lia String Ascii.
Import ListNotations.

Local Open Scope Z_scope.

(** ** Character types *)

(** A character type of the templates: [char], [wchar_t], [char8_t],
    [char16_t], [char32_t] ... Every one of them has at least 8 bits. *)
Class CharT : Type := {
  char_bits : Z;
  char_signed : bool;
  char_bits_ok : (8 <=? char_bits) = true
}.

#[export] Instance char_t : CharT :=
  {| char_bits := 8; char_signed := true; char_bits_ok := eq_refl |}.
#[export] Instance unsigned_char_t : CharT :=
  {| char_bits := 8; char_signed := false; char_bits_ok := eq_refl |}.
#[export] Instance char16_t : CharT :=
  {| char_bits := 16; char_signed := false; char_bits_ok := eq_refl |}.
#[export] Instance char32_t : CharT :=
  {| char_bits := 32; char_signed := false; char_bits_ok := eq_refl |}.
#[export] Instance wchar_t : CharT :=
  {| char_bits := 32; char_signed := true; char_bits_ok := eq_refl |}.
(** The type integer promotion gives for the narrow character types. *)
#[export] Instance int_t : CharT :=
  {| char_bits := 32; char_signed := true; char_bits_ok := eq_refl |}.

(** The values a character type holds. *)
Definition in_range {T : CharT} (z : Z) : Prop :=
  if char_signed then - 2 ^ (char_bits - 1) <= z < 2 ^ (char_bits - 1)
  else 0 <= z < 2 ^ char_bits.

(** Conversion of an integer to [CharT] (modular, two's complement). *)
Definition to_CharT {T : CharT} (z : Z) : Z :=
  if char_signed
  then (z + 2 ^ (char_bits - 1)) mod 2 ^ char_bits - 2 ^ (char_bits - 1)
  else z mod 2 ^ char_bits.

(** A narrow character literal ['c'], as its code. *)
Definition chr (c : ascii) : Z := Z.of_N (N_of_ascii c).

(** [CharT{'c'}] *)
Definition CharT_of {T : CharT} (c : ascii) : Z := to_CharT (chr c).

(** A narrow string literal's characters (without the terminator). *)
Definition lit (s : string) : list Z := map chr (list_ascii_of_string s).

(** The 7-bit codes, on which all character types agree. *)
Definition is_ascii (z : Z) : bool := (0 <=? z) && (z <? 128).

(** ** Character classifier *)

Section Classifier.
Context {T : CharT}.

(** [lowercase_bit<CharT> = CharT{'a'} - CharT{'A'}], stored as a [CharT]. *)
Definition lowercase_bit : Z := to_CharT (CharT_of "a" - CharT_of "A").

(** [to_lower(c) = c | lowercase_bit<CharT>]; the result has the promoted
    type, so nothing is truncated here. *)
Definition to_lower (c : Z) : Z := Z.lor c lowercase_bit.

(** [is_alpha(in)]: [const CharT c = to_lower(in);
    return (c >= CharT{'a'}) & (c <= CharT{'z'});] *)
Definition is_alpha (in_ : Z) : bool :=
  let c := to_CharT (to_lower in_) in
  (CharT_of "a" <=? c) && (c <=? CharT_of "z").
End Classifier.

(** ** Case-sensitivity tag *)

Record case_sensitivity_tag : Type := { value : bool }.

Definition case_insensitive : case_sensitivity_tag := {| value := false |}.
Definition case_sensitive : case_sensitivity_tag := {| value := true |}.

(** ** The comparator *)

Section Comparator.
Context {T : CharT}.
Variable CaseSensitive : case_sensitivity_tag.

(** [wildcard_comparator<CaseSensitive>::operator()(pattern, subject)] *)
Definition wildcard_comparator (pattern subject : Z) : bool :=
  if pattern =? CharT_of "?" then
    negb (subject =? CharT_of ".")
  else if value CaseSensitive then
    pattern =? subject
  else
    (pattern =? subject)
    || (is_alpha pattern && is_alpha subject
        && (to_lower pattern =? to_lower subject)).
End Comparator.

(** ** The matcher *)

(** [it == end] for an iterator modelled by what remains of its range. *)
Definition at_end (it : list Z) : bool :=
  match it with
  | [] => true
  | _ :: _ => false
  end.

(** [std::mismatch(first1, last1, first2, last2, pred)]: both iterators
    advance while neither is at its end and [pred] accepts the pair. *)
Fixpoint mismatch (pred : Z -> Z -> bool) (first1 first2 : list Z)
  : list Z * list Z :=
  match first1, first2 with
  | c1 :: next1, c2 :: next2 =>
      if pred c1 c2 then mismatch pred next1 next2 else (first1, first2)
  | _, _ => (first1, first2)
  end.

Section Glob.
Context {T : CharT}.
Variable CaseSensitive : case_sensitivity_tag.

(** The [for (;;)] loop of [glob], run for at most [iterations] rounds;
    [self] stands for the recursive call [glob<CaseSensitive>(...)].
    [None] means that the budget of rounds or of calls ran out. *)
Fixpoint glob_loop (self : list Z -> list Z -> option bool)
    (iterations : nat) (pit sit : list Z) : option bool :=
  match iterations with
  | O => None
  | S iterations' =>
      let '(pit, sit) :=
        mismatch (wildcard_comparator CaseSensitive) pit sit in
      match pit with
      | [] => Some (at_end sit)
      | c :: pnext =>
          if negb (c =? CharT_of "*") then Some false
          else
            match self pnext sit with
            | None => None
            | Some true => Some true
            | Some false =>
                match sit with
                | [] => Some false
                | _ :: snext => glob_loop self iterations' pit snext
                end
            end
      end
  end.

(** [glob] on iterators with a bound [depth] on nested calls and a bound
    [iterations] on the rounds of each call's loop. *)
Fixpoint glob_fuel (depth iterations : nat) (pit sit : list Z)
  : option bool :=
  match depth with
  | O => None
  | S depth' =>
      glob_loop (glob_fuel depth' iterations) iterations pit sit
  end.

(** Number of [*] in a pattern. *)
Definition count_stars (pattern : list Z) : nat :=
  List.length (filter (fun c => c =? CharT_of "*") pattern).

(** [glob<CaseSensitive>(pit, pend, sit, send)].  The budgets given here
    are enough on every input ([glob_fuel_glob] below), so the last branch
    is never taken. *)
Definition glob (pit sit : list Z) : bool :=
  match glob_fuel (S (count_stars pit)) (S (List.length sit)) pit sit with
  | Some b => b
  | None => false
  end.
End Glob.

(** ** Entry points *)

(** [std::basic_string_view<CharT>]: the characters in view. *)
Definition basic_string_view : Type := list Z.

(** A built-in array [const CharT[N]], such as a string literal, which
    carries its terminator as its last element. *)
Record char_array : Type := { array_elems : list Z }.

(** The array of a string literal: its characters, then the terminator. *)
Definition literal_array (s : list Z) : char_array :=
  {| array_elems := s ++ [0] |}.

(** The view [basic_string_view] builds from a pointer to characters: it
    ends before the first null character ([traits::length]). *)
Fixpoint c_str_view (elems : list Z) : basic_string_view :=
  match elems with
  | [] => []
  | c :: rest => if c =? 0 then [] else c :: c_str_view rest
  end.

(** What [std::basic_string_view{a}] is for an argument of type [A]; the
    concept [convertible_to_same_string_view] asks for it on both sides. *)
Class StringViewable (A : Type) : Type :=
  { to_string_view : A -> basic_string_view }.

#[export] Instance string_view_viewable : StringViewable basic_string_view :=
  {| to_string_view := fun v => v |}.
#[export] Instance char_array_viewable : StringViewable char_array :=
  {| to_string_view := fun a => c_str_view (array_elems a) |}.

(** [fixed_string<CharT, Length>], a [std::array<CharT, Length>] filled from
    a character array of that length. *)
Record fixed_string : Type := { fixed_elems : list Z }.

Definition fixed_string_of (in_ : char_array) : fixed_string :=
  {| fixed_elems := array_elems in_ |}.

(** [fixed_string::size()]: [Length - 1u]; an array has at least one
    element, so the subtraction does not wrap. *)
Definition fixed_size (f : fixed_string) : nat :=
  (List.length (fixed_elems f) - 1)%nat.

(** [fixed_string::to_view()]: [basic_string_view(data(), size())]. *)
Definition fixed_to_view (f : fixed_string) : basic_string_view :=
  firstn (fixed_size f) (fixed_elems f).

Section EntryPoints.
Context {T : CharT}.

(** [glob<CaseSensitive>(basic_string_view pattern, basic_string_view
    subject)]: the core on [begin()], [end()] of both. *)
Definition glob_view (CaseSensitive : case_sensitivity_tag)
    (pattern subject : basic_string_view) : bool :=
  glob CaseSensitive pattern subject.

(** [glob<CaseSensitive>(const A & a, const B & b)] *)
Definition glob_any (CaseSensitive : case_sensitivity_tag)
    {A B : Type} `{StringViewable A} `{StringViewable B}
    (a : A) (b : B) : bool :=
  glob_view CaseSensitive (to_string_view a) (to_string_view b).

(** [glob_match<Pattern, CaseSensitive>(in)] *)
Definition glob_match (Pattern : fixed_string)
    (CaseSensitive : case_sensitivity_tag) (in_ : basic_string_view)
  : bool :=
  glob_view CaseSensitive (fixed_to_view Pattern) in_.

(** [glob_match<Pattern>(in)], with the default case mode. *)
Definition glob_match_default (Pattern : fixed_string)
    (in_ : basic_string_view) : bool :=
  glob_match Pattern case_insensitive in_.
End EntryPoints.

(** [bool glob_me(std::string_view pattern, std::string_view subject)] *)
Definition glob_me (pattern subject : basic_string_view) : bool :=
  glob_view (T := char_t) case_insensitive pattern subject.

(** ** Reference semantics *)

(** What a wildcard pattern means, stated without any scanning order, for
    comparison with [glob]: a [*] stands for any run of subject characters,
    an empty one included; every other pattern character stands for one
    subject character that the comparator accepts for it. *)
Inductive wildcard_match {T : CharT} (CaseSensitive : case_sensitivity_tag)
  : list Z -> list Z -> Prop :=
| match_end : wildcard_match CaseSensitive [] []
| match_one (c x : Z) (p s : list Z) :
    c <> CharT_of "*" ->
    wildcard_comparator CaseSensitive c x = true ->
    wildcard_match CaseSensitive p s ->
    wildcard_match CaseSensitive (c :: p) (x :: s)
| match_star_none (p s : list Z) :
    wildcard_match CaseSensitive p s ->
    wildcard_match CaseSensitive (CharT_of "*" :: p) s
| match_star_more (x : Z) (p s : list Z) :
    wildcard_match CaseSensitive (CharT_of "*" :: p) s ->
    wildcard_match CaseSensitive (CharT_of "*" :: p) (x :: s).

(** * Properties *)

(** ** Bit 5 *)

Lemma testbit_32 (n : Z) : 0 <= n -> Z.testbit 32 n = (5 =? n).
Proof. intros Hn. change 32 with (2 ^ 5). now apply Z.pow2_bits_eqb. Qed.

Lemma lor_32_set (c : Z) : Z.testbit c 5 = true -> Z.lor c 32 = c.
Proof.
  intros Hb. apply Z.bits_inj'. intros n Hn.
  rewrite Z.lor_spec, testbit_32 by assumption.
  destruct (Z.eqb_spec 5 n) as [<- | _].
  - now rewrite Hb.
  - apply orb_false_r.
Qed.

Lemma lor_32_clear (c : Z) : Z.testbit c 5 = false -> Z.lor c 32 = c + 32.
Proof.
  intros Hb. rewrite <- Z.add_lor_land.
  replace (Z.land c 32) with 0; [lia |].
  symmetry. apply Z.bits_inj'. intros n Hn.
  rewrite Z.land_spec, testbit_32, Z.bits_0 by assumption.
  destruct (Z.eqb_spec 5 n) as [<- | _].
  - now rewrite Hb.
  - apply andb_false_r.
Qed.

Lemma testbit_5_div (c : Z) : Z.b2z (Z.testbit c 5) = (c / 32) mod 2.
Proof. rewrite Z.testbit_spec' by lia. reflexivity. Qed.

Lemma testbit_5_lower (c : Z) : 96 <= c < 128 -> Z.testbit c 5 = true.
Proof.
  intros Hc. assert (H : c / 32 = 3) by (symmetry; apply Z.div_unique with (c - 96); lia).
  pose proof (testbit_5_div c) as Hd. rewrite H in Hd.
  destruct (Z.testbit c 5); [reflexivity | discriminate].
Qed.

Lemma testbit_5_upper (c : Z) : 64 <= c < 96 -> Z.testbit c 5 = false.
Proof.
  intros Hc. assert (H : c / 32 = 2) by (symmetry; apply Z.div_unique with (c - 64); lia).
  pose proof (testbit_5_div c) as Hd. rewrite H in Hd.
  destruct (Z.testbit c 5); [discriminate | reflexivity].
Qed.

(** Setting bit 5 never leaves an interval whose ends are multiples of 64. *)
Lemma lor_32_bounds (c lo hi : Z) :
  64 * lo <= c < 64 * hi -> 64 * lo <= Z.lor c 32 < 64 * hi.
Proof.
  intros Hc. destruct (Z.testbit c 5) eqn:Hb.
  - now rewrite lor_32_set.
  - rewrite lor_32_clear by assumption.
    pose proof (testbit_5_div c) as Hd. rewrite Hb in Hd. simpl in Hd.
    pose proof (Z.div_mod c 32 ltac:(lia)) as H1.
    pose proof (Z.mod_pos_bound c 32 ltac:(lia)) as H2.
    pose proof (Z.div_mod (c / 32) 2 ltac:(lia)) as H3.
    rewrite <- Hd in H3. lia.
Qed.

(** ** Character types and the classifier *)

Section CharFacts.
Context {T : CharT}.

Lemma char_bits_ge : 8 <= char_bits.
Proof. apply Z.leb_le, char_bits_ok. Qed.

Lemma pow_char_bits : 2 ^ char_bits = 2 * 2 ^ (char_bits - 1).
Proof.
  pose proof char_bits_ge.
  rewrite <- Z.pow_succ_r by lia. f_equal. lia.
Qed.

Lemma pow_char_bits_64 : 2 ^ (char_bits - 1) = 64 * 2 ^ (char_bits - 7).
Proof.
  pose proof char_bits_ge.
  change 64 with (2 ^ 6). rewrite <- Z.pow_add_r by lia. f_equal. lia.
Qed.

Lemma pow_char_bits_ge : 2 <= 2 ^ (char_bits - 7).
Proof.
  pose proof char_bits_ge. change 2 with (2 ^ 1) at 1.
  apply Z.pow_le_mono_r; lia.
Qed.

(** A value of the type is unchanged by conversion to it. *)
Lemma to_CharT_in_range (z : Z) : in_range z -> to_CharT z = z.
Proof.
  unfold in_range, to_CharT. pose proof pow_char_bits.
  destruct char_signed; intros Hz.
  - rewrite Z.mod_small; lia.
  - now apply Z.mod_small.
Qed.

(** The 7-bit codes belong to every character type. *)
Lemma ascii_in_range (z : Z) : 0 <= z < 128 -> in_range z.
Proof.
  unfold in_range. pose proof pow_char_bits. pose proof pow_char_bits_64.
  pose proof pow_char_bits_ge. destruct char_signed; lia.
Qed.

Lemma to_CharT_ascii (z : Z) : 0 <= z < 128 -> to_CharT z = z.
Proof. intros Hz. now apply to_CharT_in_range, ascii_in_range. Qed.

Lemma CharT_of_ascii (c : ascii) : chr c < 128 -> CharT_of c = chr c.
Proof.
  intros Hc. apply to_CharT_ascii. split; [apply N2Z.is_nonneg | exact Hc].
Qed.

Lemma lowercase_bit_eq : lowercase_bit = 32.
Proof.
  unfold lowercase_bit. rewrite !CharT_of_ascii by reflexivity.
  now apply to_CharT_ascii.
Qed.

Lemma to_lower_eq (c : Z) : to_lower c = Z.lor c 32.
Proof. unfold to_lower. now rewrite lowercase_bit_eq. Qed.

(** [c | 0x20] is again a value of the character type, so that the
    conversion in [is_alpha] changes nothing. *)
Lemma to_lower_in_range (c : Z) : in_range c -> in_range (to_lower c).
Proof.
  rewrite to_lower_eq. unfold in_range.
  pose proof pow_char_bits as H2. pose proof pow_char_bits_64 as H64.
  destruct char_signed; intros Hc.
  - rewrite H64 in *.
    replace (- (64 * 2 ^ (char_bits - 7)))
      with (64 * - 2 ^ (char_bits - 7)) in * by lia.
    now apply lor_32_bounds.
  - rewrite H2, H64 in *.
    replace (2 * (64 * 2 ^ (char_bits - 7)))
      with (64 * (2 * 2 ^ (char_bits - 7))) in * by lia.
    change 0 with (64 * 0) in *. now apply lor_32_bounds.
Qed.

Lemma is_alpha_eq (c : Z) :
  in_range c -> is_alpha c = (97 <=? Z.lor c 32) && (Z.lor c 32 <=? 122).
Proof.
  intros Hc. unfold is_alpha.
  rewrite to_CharT_in_range by now apply to_lower_in_range.
  rewrite to_lower_eq, !CharT_of_ascii by reflexivity. reflexivity.
Qed.

(** On the values of the character type, [is_alpha] holds of the ASCII
    letters and of nothing else. *)
Lemma is_alpha_spec (c : Z) :
  in_range c -> is_alpha c = true <-> 65 <= c <= 90 \/ 97 <= c <= 122.
Proof.
  intros Hc. rewrite is_alpha_eq by assumption.
  rewrite andb_true_iff, !Z.leb_le. split.
  - intros H. destruct (Z.testbit c 5) eqn:Hb.
    + rewrite lor_32_set in H by assumption. lia.
    + rewrite lor_32_clear in H by assumption. lia.
  - intros [H | H].
    + rewrite lor_32_clear by (apply testbit_5_upper; lia). lia.
    + rewrite lor_32_set by (apply testbit_5_lower; lia). lia.
Qed.

Lemma is_alpha_star : is_alpha (CharT_of "*") = false.
Proof.
  rewrite CharT_of_ascii by reflexivity.
  rewrite is_alpha_eq by now apply ascii_in_range. reflexivity.
Qed.
End CharFacts.

(** ** [std::mismatch] *)

Section MismatchFacts.
Variable pred : Z -> Z -> bool.

(** The iterators only move forward. *)
Lemma mismatch_length (p s p' s' : list Z) :
  mismatch pred p s = (p', s') ->
  (List.length p' <= List.length p)%nat
  /\ (List.length s' <= List.length s)%nat.
Proof.
  revert s. induction p as [| c p IH]; intros [| x s] H; simpl in H;
    try (injection H as <- <-; split; reflexivity).
  destruct (pred c x).
  - apply IH in H. simpl. lia.
  - injection H as <- <-. split; reflexivity.
Qed.

(** Where the scan stops, it stops again. *)
Lemma mismatch_idem (p s p' s' : list Z) :
  mismatch pred p s = (p', s') -> mismatch pred p' s' = (p', s').
Proof.
  revert s. induction p as [| c p IH]; intros [| x s] H; simpl in H;
    try (injection H as <- <-; reflexivity).
  destruct (pred c x) eqn:E.
  - now apply IH in H.
  - injection H as <- <-. simpl. now rewrite E.
Qed.

(** A prefix that is accepted pair by pair is scanned through. *)
Lemma mismatch_app (pre1 pre2 p s : list Z) :
  Forall2 (fun c x => pred c x = true) pre1 pre2 ->
  mismatch pred (pre1 ++ p) (pre2 ++ s) = mismatch pred p s.
Proof.
  induction 1 as [| c x pre1 pre2 Hcx _ IH]; simpl.
  - reflexivity.
  - now rewrite Hcx.
Qed.

(** The scan stops at a pair that is rejected. *)
Lemma mismatch_stop (c x : Z) (p s : list Z) :
  pred c x = false -> mismatch pred (c :: p) (x :: s) = (c :: p, x :: s).
Proof. intros H. simpl. now rewrite H. Qed.
End MismatchFacts.

(** ** Termination of [glob] *)

Section GlobFacts.
Context {T : CharT}.
Variable CaseSensitive : case_sensitivity_tag.

Local Abbreviation cmp := (wildcard_comparator CaseSensitive).

Lemma count_stars_cons (c : Z) (p : list Z) :
  count_stars (c :: p)
  = ((if (c =? CharT_of "*")%Z then 1 else 0) + count_stars p)%nat.
Proof. unfold count_stars. simpl. now destruct (c =? CharT_of "*"). Qed.

Lemma mismatch_count_stars (pred : Z -> Z -> bool) (p s p' s' : list Z) :
  mismatch pred p s = (p', s') -> (count_stars p' <= count_stars p)%nat.
Proof.
  revert s. induction p as [| c p IH]; intros [| x s] H; simpl in H;
    try (injection H as <- <-; reflexivity).
  destruct (pred c x).
  - apply IH in H. rewrite count_stars_cons. lia.
  - injection H as <- <-. reflexivity.
Qed.

(** More budget never changes a result. *)
Lemma glob_loop_mono (self self' : list Z -> list Z -> option bool) :
  (forall p s b, self p s = Some b -> self' p s = Some b) ->
  forall (n n' : nat) (p s : list Z) (b : bool),
    (n <= n')%nat ->
    glob_loop CaseSensitive self n p s = Some b ->
    glob_loop CaseSensitive self' n' p s = Some b.
Proof.
  intros Hself. induction n as [| n IH]; intros n' p s b Hn H.
  - discriminate.
  - destruct n' as [| n']; [lia |]. simpl in *.
    destruct (mismatch cmp p s) as [p' s'].
    destruct p' as [| c pn]; [assumption |].
    destruct (negb (c =? CharT_of "*")); [assumption |].
    destruct (self pn s') as [r |] eqn:Er; [| discriminate].
    rewrite (Hself _ _ _ Er).
    destruct r; [assumption |].
    destruct s' as [| x sn]; [assumption |].
    apply IH; [lia | assumption].
Qed.

Lemma glob_fuel_mono (d d' n n' : nat) (p s : list Z) (b : bool) :
  (d <= d')%nat -> (n <= n')%nat ->
  glob_fuel CaseSensitive d n p s = Some b ->
  glob_fuel CaseSensitive d' n' p s = Some b.
Proof.
  intros Hd Hn. revert d' Hd p s b.
  induction d as [| d IH]; intros d' Hd p s b H.
  - discriminate.
  - destruct d' as [| d']; [lia |]. simpl in *.
    apply glob_loop_mono with (self := glob_fuel CaseSensitive d n) (n := n);
      [| assumption | assumption].
    intros p0 s0 b0. apply IH. lia.
Qed.

(** A call nests at most one call per star of its pattern, and its loop
    runs at most once per character that is left of the subject, once
    more at its end. *)
Lemma glob_fuel_total (d n : nat) (p s : list Z) :
  (count_stars p < d)%nat -> (List.length s < n)%nat ->
  exists b, glob_fuel CaseSensitive d n p s = Some b.
Proof.
  revert p s. induction d as [| d IHd]; intros p s Hd Hn; [lia |].
  simpl.
  assert (Hloop : forall m p s,
    (count_stars p <= d)%nat -> (List.length s < m)%nat ->
    (List.length s < n)%nat ->
    exists b,
      glob_loop CaseSensitive (glob_fuel CaseSensitive d n) m p s = Some b).
  { clear p s Hd Hn.
    induction m as [| m IHm]; intros p s Hp Hm Hn; [lia |].
    simpl. destruct (mismatch cmp p s) as [p' s'] eqn:Em.
    pose proof (mismatch_length _ _ _ _ _ Em) as [_ Hs'].
    pose proof (mismatch_count_stars _ _ _ _ _ Em) as Hp'.
    destruct p' as [| c pn]; [eauto |].
    destruct (c =? CharT_of "*") eqn:Ec; simpl; [| eauto].
    rewrite count_stars_cons, Ec in Hp'.
    destruct (IHd pn s') as [r Hr]; [lia | lia |].
    rewrite Hr. destruct r; [eauto |].
    destruct s' as [| x sn]; [eauto |].
    simpl in Hs'. apply IHm; [| lia | lia].
    rewrite count_stars_cons, Ec. lia. }
  apply Hloop; lia.
Qed.

(** With enough budget the bounded matcher returns what [glob] returns. *)
Lemma glob_fuel_glob (d n : nat) (p s : list Z) :
  (count_stars p < d)%nat -> (List.length s < n)%nat ->
  glob_fuel CaseSensitive d n p s = Some (glob CaseSensitive p s).
Proof.
  intros Hd Hn. unfold glob.
  destruct (glob_fuel_total (S (count_stars p)) (S (List.length s)) p s)
    as [b Hb]; [lia | lia |].
  rewrite Hb. revert Hb. apply glob_fuel_mono; lia.
Qed.

(** The body of [glob], once: the equation the C++ function satisfies,
    with the loop's next round written as a call. *)
Lemma glob_unfold (p s : list Z) :
  glob CaseSensitive p s =
  let '(p', s') := mismatch cmp p s in
  match p' with
  | [] => at_end s'
  | c :: pn =>
      if negb (c =? CharT_of "*") then false
      else if glob CaseSensitive pn s' then true
      else match s' with
           | [] => false
           | _ :: sn => glob CaseSensitive p' sn
           end
  end.
Proof.
  remember (S (count_stars p)) as d eqn:Hd.
remember (S (List.length s)) as n eqn:Hn.
  assert (H : glob_fuel CaseSensitive (S d) (S n) p s
              = Some (glob CaseSensitive p s))
    by (apply glob_fuel_glob; lia).
  simpl in H.
  destruct (mismatch cmp p s) as [p' s'] eqn:Em.
  pose proof (mismatch_length _ _ _ _ _ Em) as [_ Hs'].
  pose proof (mismatch_count_stars _ _ _ _ _ Em) as Hp'.
  destruct p' as [| c pn]; [congruence |].
  destruct (c =? CharT_of "*") eqn:Ec; simpl in *; [| congruence].
  rewrite count_stars_cons, Ec in Hp'.
  rewrite (glob_fuel_glob d (S n) pn s') in H by lia.
  destruct (glob CaseSensitive pn s'); [congruence |].
  destruct s' as [| x sn]; [congruence |].
  simpl in Hs'.
  assert (H' : glob_fuel CaseSensitive (S d) n (c :: pn) sn
               = Some (glob CaseSensitive (c :: pn) sn)).
  { apply glob_fuel_glob; [| lia]. rewrite count_stars_cons, Ec. lia. }
  simpl in H'.
  apply glob_loop_mono
    with (self' := glob_fuel CaseSensitive d (S n)) (n' := n) in H'.
  - congruence.
  - intros p0 s0 b0. apply glob_fuel_mono; lia.
  - lia.
Qed.
End GlobFacts.

(** ** Consequences of the equation *)

Section GlobEquations.
Context {T : CharT}.
Variable CaseSensitive : case_sensitivity_tag.

Local Abbreviation cmp := (wildcard_comparator CaseSensitive).

(** [glob] only looks at what the first scan leaves. *)
Lemma glob_mismatch (p s p' s' : list Z) :
  mismatch cmp p s = (p', s') ->
  glob CaseSensitive p s = glob CaseSensitive p' s'.
Proof.
  intros Em. rewrite (glob_unfold _ p s), (glob_unfold _ p' s').
  now rewrite Em, (mismatch_idem _ _ _ _ _ Em).
Qed.

Lemma glob_nil (s : list Z) : glob CaseSensitive [] s = at_end s.
Proof. rewrite glob_unfold. now destruct s. Qed.

(** The comparator on a [*] of the pattern: it is an ordinary character
    there, equal to itself and to nothing else. *)
Lemma wildcard_comparator_star (x : Z) :
  cmp (CharT_of "*") x = (CharT_of "*" =? x).
Proof.
  unfold wildcard_comparator.
  rewrite is_alpha_star, !CharT_of_ascii by reflexivity. simpl.
  rewrite orb_false_r. now destruct (value CaseSensitive).
Qed.

(** A lone [*] matches every subject that holds no [*]. *)
Lemma glob_star_plain (s : list Z) :
  ~ In (CharT_of "*") s -> glob CaseSensitive [CharT_of "*"] s = true.
Proof.
  induction s as [| x s IH]; intros Hs; rewrite glob_unfold.
  - cbn [mismatch]. rewrite Z.eqb_refl. cbn [negb]. now rewrite glob_nil.
  - assert (Hx : cmp (CharT_of "*") x = false).
    { rewrite wildcard_comparator_star. apply Z.eqb_neq.
      intros <-. apply Hs. now left. }
    rewrite mismatch_stop by assumption.
    rewrite Z.eqb_refl. cbn [negb]. rewrite glob_nil. cbn [at_end].
    apply IH. intros Hin. apply Hs. now right.
Qed.

(** What holds of a trailing [*]: after a prefix that the comparator
    accepts, it absorbs every remainder that holds no [*]. *)
Lemma glob_trailing_star_plain (P S R : list Z) :
  Forall2 (fun c x => cmp c x = true) P S ->
  ~ In (CharT_of "*") R ->
  glob CaseSensitive (P ++ [CharT_of "*"]) (S ++ R) = true.
Proof.
  intros HP HR.
  destruct (mismatch cmp [CharT_of "*"] R) as [p' s'] eqn:Em.
  rewrite (glob_mismatch (P ++ [CharT_of "*"]) (S ++ R) p' s')
    by now rewrite mismatch_app.
  rewrite <- (glob_mismatch _ _ _ _ Em). now apply glob_star_plain.
Qed.
End GlobEquations.

(** ** The two case modes *)

Section CaseModes.
Context {T : CharT}.

(** Whatever the case-sensitive comparator accepts, the case-insensitive
    one accepts. *)
Lemma wildcard_comparator_weaken (p x : Z) :
  wildcard_comparator case_sensitive p x = true ->
  wildcard_comparator case_insensitive p x = true.
Proof.
  unfold wildcard_comparator. simpl.
  destruct (p =? CharT_of "?"); [trivial |].
  intros ->. reflexivity.
Qed.

(** A case-sensitive scan that ends on a [*] or at the end of the pattern
    is also the case-insensitive scan. *)
Lemma mismatch_weaken (p s p' s' : list Z) :
  mismatch (wildcard_comparator case_sensitive) p s = (p', s') ->
  match p' with
  | [] => True
  | c :: _ => c = CharT_of "*"
  end ->
  mismatch (wildcard_comparator case_insensitive) p s = (p', s').
Proof.
  revert s. induction p as [| c p IH]; intros [| x s] H Hp'; simpl in *;
    try assumption.
  destruct (wildcard_comparator case_sensitive c x) eqn:E.
  - rewrite (wildcard_comparator_weaken _ _ E). now apply IH.
  - injection H as <- <-. subst c.
    rewrite wildcard_comparator_star in E |- *. now rewrite E.
Qed.
End CaseModes.

(** ** Independence of the character type on 7-bit text *)

Lemma is_ascii_bounds (z : Z) : is_ascii z = true -> 0 <= z < 128.
Proof. unfold is_ascii. rewrite andb_true_iff, Z.leb_le, Z.ltb_lt. tauto. Qed.

Lemma mismatch_forallb (pred : Z -> Z -> bool) (P : Z -> bool)
    (p s p' s' : list Z) :
  mismatch pred p s = (p', s') ->
  forallb P p = true -> forallb P s = true ->
  forallb P p' = true /\ forallb P s' = true.
Proof.
  revert s. induction p as [| c p IH]; intros [| x s] H Hp Hs; simpl in H;
    try (injection H as <- <-; split; assumption).
  destruct (pred c x).
  - simpl in Hp, Hs. apply andb_true_iff in Hp, Hs.
    apply IH with (s := s); tauto.
  - injection H as <- <-. split; assumption.
Qed.

Section CharTypes.
Context (T T' : CharT).
Variable CaseSensitive : case_sensitivity_tag.

Lemma wildcard_comparator_char_type (c x : Z) :
  is_ascii c = true -> is_ascii x = true ->
  wildcard_comparator (T := T) CaseSensitive c x
  = wildcard_comparator (T := T') CaseSensitive c x.
Proof.
  intros Hc%is_ascii_bounds Hx%is_ascii_bounds. unfold wildcard_comparator.
  rewrite !CharT_of_ascii, !is_alpha_eq, !to_lower_eq
    by (reflexivity || now apply ascii_in_range).
  reflexivity.
Qed.

Lemma mismatch_char_type (p s : list Z) :
  forallb is_ascii p = true -> forallb is_ascii s = true ->
  mismatch (wildcard_comparator (T := T) CaseSensitive) p s
  = mismatch (wildcard_comparator (T := T') CaseSensitive) p s.
Proof.
  revert s. induction p as [| c p IH]; intros [| x s] Hp Hs; simpl;
    try reflexivity.
  simpl in Hp, Hs. apply andb_true_iff in Hp as [Hc Hp], Hs as [Hx Hs].
  rewrite (wildcard_comparator_char_type c x) by assumption.
  now rewrite IH.
Qed.

(** On 7-bit text [glob] gives the same answer for every character type. *)
Lemma glob_char_type (p s : list Z) :
  forallb is_ascii p = true -> forallb is_ascii s = true ->
  glob (T := T) CaseSensitive p s = glob (T := T') CaseSensitive p s.
Proof.
  remember (List.length p + List.length s)%nat as k eqn:Hk.
  revert p s Hk. induction k as [k IH] using lt_wf_ind. intros p s Hk Hp Hs.
  rewrite (glob_unfold (T := T)), (glob_unfold (T := T')).
  rewrite <- mismatch_char_type by assumption.
  destruct (mismatch (wildcard_comparator (T := T) CaseSensitive) p s)
    as [p' s'] eqn:Em.
  pose proof (mismatch_length _ _ _ _ _ Em) as [Hlp Hls].
  pose proof (mismatch_forallb _ _ _ _ _ _ Em Hp Hs) as [Hp' Hs'].
  destruct p' as [| c pn]; [reflexivity |].
  rewrite !CharT_of_ascii by reflexivity.
  destruct (negb (c =? chr "*")); [reflexivity |].
  simpl in Hp', Hlp. apply andb_true_iff in Hp' as [Hc Hpn].
  rewrite <- (IH (List.length pn + List.length s')%nat) with (p := pn) (s := s')
    by (lia || assumption || reflexivity).
  destruct (glob CaseSensitive pn s'); [reflexivity |].
  destruct s' as [| x sn]; [reflexivity |].
  simpl in Hs', Hls. apply andb_true_iff in Hs' as [Hx Hsn].
  apply (IH (List.length (c :: pn) + List.length sn)%nat);
    simpl; try lia; try reflexivity; try assumption.
  now rewrite Hc, Hpn.
Qed.
End CharTypes.

(** * The static assertions of the source *)

(** Evaluation on 7-bit literals: carried to [char] and computed there. *)
Ltac on_char :=
  rewrite ?(fun T cs => glob_char_type T char_t cs) by reflexivity;
  vm_compute; reflexivity.

Section StaticAssertions.
Context {T : CharT}.

Example to_lower_a : to_lower (chr "a") = chr "a".
Proof. rewrite to_lower_eq. reflexivity. Qed.
Example to_lower_A : to_lower (chr "A") = chr "a".
Proof. rewrite to_lower_eq. reflexivity. Qed.
Example is_alpha_a : is_alpha (chr "a") = true.
Proof. now rewrite is_alpha_eq by now apply ascii_in_range. Qed.
Example is_alpha_A : is_alpha (chr "A") = true.
Proof. now rewrite is_alpha_eq by now apply ascii_in_range. Qed.
Example is_alpha_0 : is_alpha (chr "0") = false.
Proof. now rewrite is_alpha_eq by now apply ascii_in_range. Qed.
Example is_alpha_at : is_alpha (chr "@") = false.
Proof. now rewrite is_alpha_eq by now apply ascii_in_range. Qed.

Example glob_abc_def : glob case_sensitive (lit "abc") (lit "def") = false.
Proof. on_char. Qed.
Example glob_abc_ABC : glob case_sensitive (lit "abc") (lit "ABC") = false.
Proof. on_char. Qed.
Example glob_ci_abc_ABC : glob case_insensitive (lit "abc") (lit "ABC") = true.
Proof. on_char. Qed.
Example glob_abc_abc : glob case_sensitive (lit "abc") (lit "abc") = true.
Proof. on_char. Qed.
Example glob_a_star_c : glob case_sensitive (lit "a*c") (lit "axxxxxc") = true.
Proof. on_char. Qed.
Example glob_exe : glob case_insensitive (lit "*.exe") (lit "aloha.EXE") = true.
Proof. on_char. Qed.
Example glob_stars_abc :
  glob case_insensitive (lit "***abc***") (lit "abc") = true.
Proof. on_char. Qed.
Example glob_stars_noise :
  glob case_insensitive (lit "***a?c***") (lit "xxxxxxxaxcxxxxxx") = true.
Proof. on_char. Qed.
Example glob_star_abc : glob case_insensitive (lit "*abc") (lit "abc") = true.
Proof. on_char. Qed.
Example glob_match_exe :
  glob_match_default (fixed_string_of (literal_array (lit "*.exe")))
    (lit "aloha.EXE") = true.
Proof. unfold glob_match_default, glob_match, glob_view. on_char. Qed.
Example glob_match_ver :
  glob_match_default (fixed_string_of (literal_array (lit "ver??.txt")))
    (lit "ver92.txt") = true.
Proof. unfold glob_match_default, glob_match, glob_view. on_char. Qed.
End StaticAssertions.

(** * Properties of the specification *)

(** C1. The comparator is handed every pattern character by
    [std::mismatch], a [*] included, and it finds a [*] equal to a [*] of
    the subject: the scan of ["*x"] against ["*yx"] does not stop at the
    star but goes on to [x] against [y], and [glob] answers [false]; the
    star never gets to absorb ["*y"]. *)
Theorem star_scanned_as_literal (T : CharT) :
  (forall cs, wildcard_comparator cs (CharT_of "*") (CharT_of "*") = true)
  /\ mismatch (wildcard_comparator case_sensitive) (lit "*x") (lit "*yx")
     = (lit "x", lit "yx")
  /\ glob case_sensitive (lit "*x") (lit "*yx") = false.
Proof.
  split; [| split].
  - intros cs. rewrite wildcard_comparator_star. apply Z.eqb_refl.
  - rewrite (mismatch_char_type T char_t) by reflexivity. reflexivity.
  - on_char.
Qed.

(** C2. A trailing [*] does not absorb a remainder of the subject that
    begins with [*], nor one that holds a [*] before its last character:
    ["*"] rejects ["*y"] and ["a*b"], and ["ab*"] rejects ["ab*c"], in both
    case modes. *)
Theorem trailing_star_rejects_subject_star
    (T : CharT) (cs : case_sensitivity_tag) :
  glob cs (lit "" ++ lit "*") (lit "" ++ lit "*y") = false
  /\ glob cs (lit "" ++ lit "*") (lit "" ++ lit "a*b") = false
  /\ glob cs (lit "ab" ++ lit "*") (lit "ab" ++ lit "*c") = false.
Proof. destruct cs as [[|]]; repeat split; on_char. Qed.

(** C3. In case-insensitive mode the comparator accepts a pattern
    character [p] other than [?] and a subject character [s] exactly when
    [p == s], or both are alphabetic and their lowercase forms are equal.
    Hence two distinct characters of which one is not alphabetic never
    match, whatever their lowercase forms: ['@'] and ['`'] differ by the
    fold bit only, and ["@"] does not match ["`"]. *)
Theorem case_insensitive_comparator (T : CharT) (p s : Z)
    (Hp : p <> CharT_of "?") :
  (wildcard_comparator case_insensitive p s = true <->
     p = s
     \/ (is_alpha p = true /\ is_alpha s = true /\ to_lower p = to_lower s))
  /\ (p <> s -> is_alpha p = false \/ is_alpha s = false ->
      wildcard_comparator case_insensitive p s = false)
  /\ to_lower (chr "@") = to_lower (chr "`")
  /\ wildcard_comparator case_insensitive (chr "@") (chr "`") = false
  /\ glob case_insensitive (lit "@") (lit "`") = false.
Proof.
  assert (Hiff : wildcard_comparator case_insensitive p s = true <->
     p = s
     \/ (is_alpha p = true /\ is_alpha s = true /\ to_lower p = to_lower s)).
  { unfold wildcard_comparator. apply Z.eqb_neq in Hp. rewrite Hp. simpl.
    rewrite orb_true_iff, !andb_true_iff, !Z.eqb_eq. tauto. }
  split; [exact Hiff | split; [| split; [| split]]].
  - intros Hne Halpha.
    apply not_true_is_false. intros E. apply Hiff in E. destruct E as [E | (E1 & E2 & _)]; [contradiction |].
    destruct Halpha; congruence.
  - rewrite !to_lower_eq. reflexivity.
  - rewrite (wildcard_comparator_char_type T char_t) by reflexivity.
    reflexivity.
  - on_char.
Qed.

Lemma case_insensitive_comparator_witness :
  wildcard_comparator (T := char_t) case_insensitive (chr "a") (chr "A")
  = true.
Proof.
  apply (proj1 (case_insensitive_comparator char_t (chr "a") (chr "A")
                  ltac:(discriminate))).
  right. repeat split; reflexivity.
Defined.

(** C4. [glob] terminates with a boolean on every pattern and subject, in
    either case mode: the bounded matcher returns it as soon as the bound
    on nested calls exceeds the number of [*] in the pattern (each nested
    call works on the pattern behind one more star) and the bound on the
    rounds of a loop exceeds the length of the subject (each round moves the
    subject position on by one).  A smaller budget runs out or gives the
    same answer; there is no other outcome. *)
Theorem glob_terminates (T : CharT) (cs : case_sensitivity_tag)
    (pattern subject : list Z) (depth iterations : nat) :
  (count_stars pattern < depth)%nat ->
  (List.length subject < iterations)%nat ->
  glob_fuel cs depth iterations pattern subject
  = Some (glob cs pattern subject)
  /\ (forall (d n : nat) (b : bool),
        glob_fuel cs d n pattern subject = Some b ->
        b = glob cs pattern subject).
Proof.
  intros Hd Hn. split.
  - now apply glob_fuel_glob.
  - intros d n b H.
    apply glob_fuel_mono
      with (d' := Nat.max d depth) (n' := Nat.max n iterations) in H;
      [| lia | lia].
    rewrite glob_fuel_glob in H by lia. congruence.
Qed.

Lemma glob_terminates_witness :
  glob_fuel (T := char_t) case_sensitive 3 9 (lit "a*b*c") (lit "axxxbxxc")
  = Some (glob (T := char_t) case_sensitive (lit "a*b*c") (lit "axxxbxxc")).
Proof.
  apply (glob_terminates char_t case_sensitive (lit "a*b*c") (lit "axxxbxxc"));
    vm_compute; lia.
Defined.

(** C5. A [?] of the pattern accepts every subject character but the dot,
    whatever the case mode, and the test comes before any look at the case
    mode: ["a?c"] rejects ["a.c"] and matches ["abc"] in both modes.  It
    stands for one character, no fewer and no more. *)
Theorem question_mark_excludes_dot (T : CharT) (cs : case_sensitivity_tag) :
  (forall s : Z,
     wildcard_comparator cs (CharT_of "?") s = negb (s =? CharT_of "."))
  /\ glob cs (lit "a?c") (lit "a.c") = false
  /\ glob cs (lit "a?c") (lit "abc") = true
  /\ glob cs (lit "a?c") (lit "ac") = false
  /\ glob cs (lit "a?c") (lit "abbc") = false.
Proof.
  split.
  - intros s. unfold wildcard_comparator. now rewrite Z.eqb_refl.
  - destruct cs as [[|]]; repeat split; on_char.
Qed.

(** C7. The empty pattern matches the empty subject and no other, in both
    case modes; and whenever the scan uses up the pattern, the result is
    [true] exactly when the subject is used up with it. *)
Theorem exhausted_pattern (T : CharT) (cs : case_sensitivity_tag) :
  glob cs [] [] = true
  /\ (forall S : list Z, S <> [] -> glob cs [] S = false)
  /\ (forall p s s' : list Z,
        mismatch (wildcard_comparator cs) p s = ([], s') ->
        (glob cs p s = true <-> s' = [])).
Proof.
  split; [| split].
  - now rewrite glob_nil.
  - intros [| x S] HS; [contradiction |]. now rewrite glob_nil.
  - intros p s s' Em. rewrite (glob_mismatch _ _ _ _ _ Em), glob_nil.
    destruct s'; simpl; split; congruence.
Qed.

Lemma exhausted_pattern_witness :
  glob (T := char_t) case_sensitive [] (lit "x") = false
  /\ (glob (T := char_t) case_sensitive (lit "ab") (lit "ab") = true
      <-> @nil Z = []).
Proof.
  split.
  - apply (proj1 (proj2 (exhausted_pattern char_t case_sensitive))).
    discriminate.
  - apply (proj2 (proj2 (exhausted_pattern char_t case_sensitive))).
    reflexivity.
Defined.

(** C8. Whatever matches case-sensitively matches case-insensitively. *)
Theorem case_insensitive_superset (T : CharT) (pattern subject : list Z) :
  glob case_sensitive pattern subject = true ->
  glob case_insensitive pattern subject = true.
Proof.
  remember (List.length pattern + List.length subject)%nat as k eqn:Hk.
  revert pattern subject Hk.
  induction k as [k IH] using lt_wf_ind. intros p s Hk.
  rewrite (glob_unfold case_sensitive), (glob_unfold case_insensitive).
  destruct (mismatch (wildcard_comparator case_sensitive) p s)
    as [p' s'] eqn:Em.
  pose proof (mismatch_length _ _ _ _ _ Em) as [Hlp Hls].
  destruct p' as [| c pn].
  - now rewrite (mismatch_weaken _ _ _ _ Em).
  - destruct (Z.eqb_spec c (CharT_of "*")) as [Hc | Hc]; simpl;
      [| discriminate].
    rewrite (mismatch_weaken _ _ _ _ Em Hc).
    rewrite <- Hc, Z.eqb_refl. simpl in *.
    destruct (glob case_sensitive pn s') eqn:E1.
    + intros _.
      rewrite (IH (List.length pn + List.length s')%nat) with (2 := eq_refl);
        [reflexivity | lia | assumption].
    + destruct (glob case_insensitive pn s'); [reflexivity |].
      destruct s' as [| x sn]; [trivial |]. simpl in Hls.
      apply (IH (List.length (c :: pn) + List.length sn)%nat);
        simpl; [lia | reflexivity].
Qed.

Lemma case_insensitive_superset_witness :
  glob (T := char_t) case_insensitive (lit "a*c") (lit "abc") = true.
Proof.
  apply (case_insensitive_superset char_t (lit "a*c") (lit "abc")).
  reflexivity.
Defined.

(** ** Views *)

(** The view of a literal's array is the literal, when it holds no null
    character of its own. *)
Lemma c_str_view_literal (s : list Z) :
  ~ In 0 s -> c_str_view (array_elems (literal_array s)) = s.
Proof.
  simpl. induction s as [| c s IH]; intros Hs; simpl.
  - reflexivity.
  - destruct (Z.eqb_spec c 0) as [-> | _].
    + exfalso. apply Hs. now left.
    + f_equal. apply IH. intros Hin. apply Hs. now right.
Qed.

Lemma fixed_size_literal (s : list Z) :
  fixed_size (fixed_string_of (literal_array s)) = List.length s.
Proof. unfold fixed_size. simpl. rewrite length_app. simpl. lia. Qed.

(** The view of a [fixed_string] made from a literal leaves out the
    terminator and nothing else. *)
Lemma fixed_to_view_literal (s : list Z) :
  fixed_to_view (fixed_string_of (literal_array s)) = s.
Proof.
  unfold fixed_to_view. rewrite fixed_size_literal. simpl.
  rewrite firstn_app, Nat.sub_diag, firstn_all. simpl. apply app_nil_r.
Qed.

(** C9. Every entry point computes [glob] on the characters in view: the
    [string_view] overload; the generic overload, on the views of its two
    arguments, which for string literals are the literals; [glob_match],
    on the pattern literal without its terminator ([size()] is one less
    than the array's length), in the given and in the default,
    case-insensitive, mode; and [glob_me], case-insensitively on [char]. *)
Theorem entry_points_agree (T : CharT) (cs : case_sensitivity_tag)
    (pattern subject : list Z) :
  glob_view cs pattern subject = glob cs pattern subject
  /\ (forall (A B : Type) (VA : StringViewable A) (VB : StringViewable B)
        (a : A) (b : B),
        glob_any cs a b = glob cs (to_string_view a) (to_string_view b))
  /\ (~ In 0 pattern -> ~ In 0 subject ->
      glob_any cs (literal_array pattern) (literal_array subject)
      = glob cs pattern subject)
  /\ fixed_size (fixed_string_of (literal_array pattern))
     = List.length pattern
  /\ glob_match (fixed_string_of (literal_array pattern)) cs subject
     = glob cs pattern subject
  /\ glob_match_default (fixed_string_of (literal_array pattern)) subject
     = glob case_insensitive pattern subject
  /\ glob_me pattern subject
     = glob (T := char_t) case_insensitive pattern subject.
Proof.
  repeat split.
  - intros Hp Hs. unfold glob_any, glob_view.
    cbn [to_string_view char_array_viewable].
    now rewrite (c_str_view_literal pattern), (c_str_view_literal subject).
  - apply fixed_size_literal.
  - unfold glob_match, glob_view. now rewrite fixed_to_view_literal.
  - unfold glob_match_default, glob_match, glob_view.
    now rewrite fixed_to_view_literal.
Qed.

Lemma entry_points_agree_witness :
  glob_any (T := char_t) case_sensitive
    (literal_array (lit "a?c")) (literal_array (lit "abc"))
  = glob (T := char_t) case_sensitive (lit "a?c") (lit "abc").
Proof.
  apply (proj1 (proj2 (proj2
           (entry_points_agree char_t case_sensitive (lit "a?c") (lit "abc"))))).
  - vm_compute. intuition discriminate.
  - vm_compute. intuition discriminate.
Defined.

(** C10. [to_lower] is idempotent, at whatever character type its result
    is taken up again, and it leaves a character unchanged that already has
    the fold bit set, as every ASCII lowercase letter has. *)
Theorem to_lower_idempotent (T T' : CharT) (c : Z) :
  to_lower (T := T') (to_lower (T := T) c) = to_lower (T := T) c
  /\ (Z.land c lowercase_bit = lowercase_bit -> to_lower c = c)
  /\ (chr "a" <= c <= chr "z" -> to_lower c = c).
Proof.
  rewrite !to_lower_eq, lowercase_bit_eq. split; [| split].
  - now rewrite <- Z.lor_assoc, Z.lor_diag.
  - intros H. apply lor_32_set.
    assert (Hb : Z.testbit (Z.land c 32) 5 = true) by now rewrite H.
    rewrite Z.land_spec in Hb. now apply andb_true_iff in Hb.
  - intros H. apply lor_32_set, testbit_5_lower.
    change (chr "a") with 97 in H. change (chr "z") with 122 in H. lia.
Qed.

Lemma to_lower_idempotent_witness :
  to_lower (T := char_t) (chr "q") = chr "q".
Proof.
  apply (proj1 (proj2 (to_lower_idempotent char_t int_t (chr "q")))).
  reflexivity.
Defined.

(** * Further properties of the code *)

(** ** [glob] by cases on the first characters *)

Section GlobCases.
Context {T : CharT}.
Variable CaseSensitive : case_sensitivity_tag.

Local Abbreviation cmp := (wildcard_comparator CaseSensitive).
Local Abbreviation star := (CharT_of "*").

Lemma glob_cons_nil (c : Z) (p : list Z) :
  glob CaseSensitive (c :: p) []
  = if c =? star then glob CaseSensitive p [] else false.
Proof.
  rewrite glob_unfold. cbn [mismatch].
  destruct (c =? star); cbn [negb]; [| reflexivity].
  now destruct (glob CaseSensitive p []).
Qed.

Lemma glob_cons_cons (c x : Z) (p s : list Z) :
  glob CaseSensitive (c :: p) (x :: s)
  = if cmp c x then glob CaseSensitive p s
    else if c =? star
         then glob CaseSensitive p (x :: s) || glob CaseSensitive (c :: p) s
         else false.
Proof.
  destruct (cmp c x) eqn:E.
  - destruct (mismatch cmp p s) as [p' s'] eqn:Em.
    rewrite (glob_mismatch _ p s p' s' Em).
    apply glob_mismatch. simpl. now rewrite E.
  - rewrite glob_unfold, mismatch_stop by assumption.
    destruct (c =? star); cbn [negb]; [| reflexivity].
    now destruct (glob CaseSensitive p (x :: s)).
Qed.

Lemma wildcard_comparator_refl (c : Z) : cmp c c = true.
Proof.
  unfold wildcard_comparator.
  destruct (Z.eqb_spec c (CharT_of "?")) as [-> | _].
  - rewrite !CharT_of_ascii by reflexivity. reflexivity.
  - rewrite Z.eqb_refl. now destruct (value CaseSensitive).
Qed.

Lemma wildcard_comparator_star_other (x : Z) :
  x <> star -> cmp star x = false.
Proof.
  intros Hx. rewrite wildcard_comparator_star. apply Z.eqb_neq. congruence.
Qed.

(** A star before a subject character that is no star. *)
Lemma glob_star_cons (x : Z) (p s : list Z) :
  x <> star ->
  glob CaseSensitive (star :: p) (x :: s)
  = glob CaseSensitive p (x :: s) || glob CaseSensitive (star :: p) s.
Proof.
  intros Hx. rewrite glob_cons_cons.
  now rewrite wildcard_comparator_star_other, Z.eqb_refl.
Qed.

(** A pattern matches whatever it is accepted for pair by pair. *)
Lemma glob_pairwise (p s : list Z) :
  Forall2 (fun c x => cmp c x = true) p s -> glob CaseSensitive p s = true.
Proof.
  induction 1 as [| c x p s Hcx _ IH].
  - now rewrite glob_nil.
  - now rewrite glob_cons_cons, Hcx.
Qed.
End GlobCases.

(** ** The classifier on the values of a character type *)

(** X1. On the values of the character type, negative ones and those above
    127 included, [is_alpha] holds of the 52 ASCII letters and of nothing
    else. *)
Theorem is_alpha_ascii_letters (T : CharT) (c : Z) :
  in_range c ->
  (is_alpha c = true <->
   chr "A" <= c <= chr "Z" \/ chr "a" <= c <= chr "z").
Proof.
  intros Hc. rewrite is_alpha_eq by assumption.
  change (chr "A") with 65. change (chr "Z") with 90.
  change (chr "a") with 97. change (chr "z") with 122.
  rewrite andb_true_iff, !Z.leb_le. split.
  - intros H. destruct (Z.testbit c 5) eqn:Hb.
    + rewrite lor_32_set in H by assumption. lia.
    + rewrite lor_32_clear in H by assumption. lia.
  - intros [H | H].
    + rewrite lor_32_clear by (apply testbit_5_upper; lia). lia.
    + rewrite lor_32_set by (apply testbit_5_lower; lia). lia.
Qed.

Lemma is_alpha_ascii_letters_witness :
  is_alpha (T := char_t) (chr "G") = true <->
  chr "A" <= chr "G" <= chr "Z" \/ chr "a" <= chr "G" <= chr "z".
Proof.
  apply (is_alpha_ascii_letters char_t (chr "G")).
  vm_compute. split; [discriminate | reflexivity].
Defined.

(** X2. [to_lower] sends an ASCII capital letter to its small letter, at the
    distance ['a' - 'A']. *)
Theorem to_lower_capital (T : CharT) (c : Z) :
  chr "A" <= c <= chr "Z" ->
  to_lower c = c + (chr "a" - chr "A")
  /\ chr "a" <= to_lower c <= chr "z".
Proof.
  change (chr "A") with 65. change (chr "Z") with 90.
  change (chr "a") with 97. change (chr "z") with 122.
  intros Hc. rewrite to_lower_eq.
  rewrite lor_32_clear by (apply testbit_5_upper; lia). lia.
Qed.

Lemma to_lower_capital_witness :
  to_lower (T := char_t) (chr "G") = chr "G" + (chr "a" - chr "A")
  /\ chr "a" <= to_lower (T := char_t) (chr "G") <= chr "z".
Proof.
  apply (to_lower_capital char_t (chr "G")). vm_compute.
  split; discriminate.
Defined.

(** X3. [to_lower] of a value of the character type is a value of the
    character type, so that storing it in a [CharT], as [is_alpha] does,
    loses nothing. *)
Theorem to_lower_fits (T : CharT) (c : Z) :
  in_range c ->
  in_range (to_lower c) /\ to_CharT (to_lower c) = to_lower c.
Proof.
  intros Hc. pose proof (to_lower_in_range c Hc) as H.
  split; [exact H | now apply to_CharT_in_range].
Qed.

Lemma to_lower_fits_witness :
  in_range (T := char_t) (to_lower (T := char_t) (-128))
  /\ to_CharT (T := char_t) (to_lower (T := char_t) (-128))
     = to_lower (T := char_t) (-128).
Proof.
  apply (to_lower_fits char_t (-128)). vm_compute. split; [discriminate | reflexivity].
Defined.

(** X4. Case-insensitively, a letter of the pattern accepts its small form
    and its capital form and no other character, of whatever value. *)
Theorem letter_accepts_both_cases (T : CharT) (p s : Z) :
  in_range p -> is_alpha p = true ->
  (wildcard_comparator case_insensitive p s = true <->
   s = to_lower p \/ s = to_lower p - lowercase_bit).
Proof.
  intros Hr Hp. rewrite lowercase_bit_eq.
  assert (HL : 97 <= to_lower p <= 122).
  { rewrite is_alpha_eq in Hp by assumption. rewrite to_lower_eq.
    apply andb_true_iff in Hp. rewrite !Z.leb_le in Hp. exact Hp. }
  assert (Hq : (p =? CharT_of "?") = false).
  { apply Z.eqb_neq. intros ->.
    rewrite CharT_of_ascii, to_lower_eq in HL by reflexivity.
    vm_compute in HL. destruct HL as [HL _]. now apply HL. }
  assert (Hsame : to_lower s = to_lower p -> is_alpha s = true).
  { intros E. unfold is_alpha in *. now rewrite E. }
  unfold wildcard_comparator. rewrite Hq. cbn [value case_insensitive].
  rewrite orb_true_iff, !andb_true_iff, !Z.eqb_eq. split.
  - intros H.
    assert (E : to_lower p = to_lower s) by (destruct H as [-> | H]; tauto).
    rewrite E, to_lower_eq. destruct (Z.testbit s 5) eqn:Hb.
    + left. now rewrite lor_32_set.
    + right. rewrite lor_32_clear by assumption. lia.
  - intros H.
    assert (E : to_lower s = to_lower p).
    { set (L := to_lower p) in *. rewrite (to_lower_eq s).
      destruct H as [-> | ->].
      - apply lor_32_set, testbit_5_lower. lia.
      - rewrite lor_32_clear by (apply testbit_5_upper; lia). lia. }
    right. rewrite Hp, (Hsame E), E. tauto.
Qed.

Lemma letter_accepts_both_cases_witness :
  wildcard_comparator (T := char_t) case_insensitive (chr "G") (chr "g") = true
  <-> chr "g" = to_lower (T := char_t) (chr "G")
      \/ chr "g" = to_lower (T := char_t) (chr "G") - lowercase_bit (T := char_t).
Proof.
  apply (letter_accepts_both_cases char_t (chr "G") (chr "g")).
  - vm_compute. split; [discriminate | reflexivity].
  - reflexivity.
Defined.

(** ** [glob] on the shape of pattern and subject *)

(** A lone [*] against a subject: a [*] of the subject is taken as the
    pattern's own, so all goes well only if there is none before the
    subject's last character. *)
Lemma glob_star_alone (T : CharT) (cs : case_sensitivity_tag) (s : list Z) :
  glob cs [CharT_of "*"] s = true <-> ~ In (CharT_of "*") (removelast s).
Proof.
  induction s as [| x s IH].
  - rewrite glob_cons_nil, Z.eqb_refl, glob_nil. simpl. tauto.
  - destruct (Z.eq_dec x (CharT_of "*")) as [-> | Hx].
    + rewrite glob_cons_cons, wildcard_comparator_refl, glob_nil.
      destruct s as [| y s]; simpl; [tauto |].
      split; [discriminate | intros H; exfalso; apply H; now left].
    + rewrite glob_star_cons, glob_nil by assumption. cbn [at_end orb].
      rewrite IH. destruct s as [| y s]; simpl; [tauto |].
      split; [intros H [E | E]; [congruence | now apply H] |].
      intros H E. apply H. now right.
Qed.

(** X5. [glob] by cases on the first characters of pattern and subject:
    an empty pattern wants an empty subject; at the end of the subject only
    stars may be left; a pair that the comparator accepts is passed over, a
    [*] facing a [*] included; a [*] that is not accepted either matches
    nothing or absorbs the subject's character; anything else fails. *)
Theorem glob_by_cases (T : CharT) (cs : case_sensitivity_tag) :
  (forall s, glob cs [] s = at_end s)
  /\ (forall c p,
        glob cs (c :: p) []
        = if c =? CharT_of "*" then glob cs p [] else false)
  /\ (forall c x p s,
        glob cs (c :: p) (x :: s)
        = if wildcard_comparator cs c x then glob cs p s
          else if c =? CharT_of "*"
               then glob cs p (x :: s) || glob cs (c :: p) s
               else false)
  /\ (forall p s, glob cs (CharT_of "*" :: p) (CharT_of "*" :: s)
                  = glob cs p s).
Proof.
  split; [| split; [| split]].
  - apply glob_nil.
  - apply glob_cons_nil.
  - apply glob_cons_cons.
  - intros p s. now rewrite glob_cons_cons, wildcard_comparator_refl.
Qed.

Lemma Forall2_comparator_refl (T : CharT) (cs : case_sensitivity_tag)
    (p : list Z) :
  Forall2 (fun c x => wildcard_comparator cs c x = true) p p.
Proof.
  induction p as [| c p IH]; constructor.
  - apply wildcard_comparator_refl.
  - exact IH.
Qed.

(** X6. Every sequence matches itself as a pattern, its own [*] and [?]
    included, in both case modes. *)
Theorem glob_self (T : CharT) (cs : case_sensitivity_tag) (p : list Z) :
  glob cs p p = true.
Proof. apply glob_pairwise, Forall2_comparator_refl. Qed.

(** Without a [*] in the pattern there is nothing to try twice. *)
Lemma glob_star_free_pairwise (T : CharT) (cs : case_sensitivity_tag)
    (p s : list Z) :
  ~ In (CharT_of "*") p -> glob cs p s = true ->
  Forall2 (fun c x => wildcard_comparator cs c x = true) p s.
Proof.
  intros Hp. revert s. induction p as [| c p IH]; intros s H.
  - rewrite glob_nil in H. destruct s; [constructor | discriminate].
  - assert (Hc : (c =? CharT_of "*") = false).
    { apply Z.eqb_neq. intros ->. apply Hp. now left. }
    destruct s as [| x s].
    + rewrite glob_cons_nil, Hc in H. discriminate.
    + rewrite glob_cons_cons, Hc in H.
      destruct (wildcard_comparator cs c x) eqn:E; [| discriminate].
      constructor; [exact E |]. apply IH; [| exact H].
      intros Hin. apply Hp. now right.
Qed.

(** X7. A pattern without [*] matches the subjects of its own length that
    the comparator accepts position by position, and no others. *)
Theorem glob_star_free_pattern (T : CharT) (cs : case_sensitivity_tag)
    (p s : list Z) :
  ~ In (CharT_of "*") p ->
  (glob cs p s = true <->
   Forall2 (fun c x => wildcard_comparator cs c x = true) p s
   /\ List.length s = List.length p).
Proof.
  intros Hp. split.
  - intros H. apply glob_star_free_pairwise in H; [| assumption].
    split; [exact H |]. symmetry. now apply Forall2_length in H.
  - intros [H _]. now apply glob_pairwise.
Qed.

Lemma glob_star_free_pattern_witness :
  glob (T := char_t) case_insensitive (lit "a?c") (lit "AbC") = true <->
  Forall2
    (fun c x => wildcard_comparator (T := char_t) case_insensitive c x = true)
    (lit "a?c") (lit "AbC")
  /\ List.length (lit "AbC") = List.length (lit "a?c").
Proof.
  apply (glob_star_free_pattern char_t case_insensitive
           (lit "a?c") (lit "AbC")).
  vm_compute. intuition discriminate.
Defined.

(** X8. Case-sensitively, a pattern without [*] and [?] matches itself and
    nothing else. *)
Theorem glob_literal_pattern (T : CharT) (p s : list Z) :
  ~ In (CharT_of "*") p -> ~ In (CharT_of "?") p ->
  (glob case_sensitive p s = true <-> p = s).
Proof.
  intros Hstar Hq.
  split; [| intros <-; apply glob_pairwise, Forall2_comparator_refl].
  intros H. apply glob_star_free_pairwise in H; [| assumption].
  induction H as [| c x p s Hcx _ IH]; [reflexivity |].
  assert (Hc : (c =? CharT_of "?") = false).
  { apply Z.eqb_neq. intros ->. apply Hq. now left. }
  unfold wildcard_comparator in Hcx. rewrite Hc in Hcx. simpl in Hcx.
  apply Z.eqb_eq in Hcx. subst x. f_equal.
  apply IH; intros Hin; [apply Hstar | apply Hq]; now right.
Qed.

Lemma glob_literal_pattern_witness :
  glob (T := char_t) case_sensitive (lit "a.c") (lit "a.C") = true
  <-> lit "a.c" = lit "a.C".
Proof.
  apply (glob_literal_pattern char_t (lit "a.c") (lit "a.C"));
    vm_compute; intuition discriminate.
Defined.

(** X9. The empty subject is matched by the patterns made of [*] only,
    the empty pattern among them. *)
Theorem glob_empty_subject (T : CharT) (cs : case_sensitivity_tag)
    (p : list Z) :
  glob cs p [] = forallb (fun c => c =? CharT_of "*") p.
Proof.
  induction p as [| c p IH].
  - now rewrite glob_nil.
  - rewrite glob_cons_nil, IH. simpl.
    now destruct (c =? CharT_of "*").
Qed.

(** X10. After a prefix that the comparator accepts pair by pair, a
    trailing [*] takes the rest of the subject exactly when that rest has
    no [*] before its last character. *)
Theorem trailing_star_exact (T : CharT) (cs : case_sensitivity_tag)
    (P S R : list Z) :
  Forall2 (fun c x => wildcard_comparator cs c x = true) P S ->
  (glob cs (P ++ [CharT_of "*"]) (S ++ R) = true
   <-> ~ In (CharT_of "*") (removelast R)).
Proof.
  intros HP.
  destruct (mismatch (wildcard_comparator cs) [CharT_of "*"] R)
    as [p' s'] eqn:Em.
  rewrite (glob_mismatch cs (P ++ [CharT_of "*"]) (S ++ R) p' s')
    by now rewrite mismatch_app.
  rewrite <- (glob_mismatch cs _ _ _ _ Em). apply glob_star_alone.
Qed.

Lemma trailing_star_exact_witness :
  glob (T := char_t) case_insensitive
    (lit "a?" ++ [CharT_of (T := char_t) "*"]) (lit "Ab" ++ lit "c*d") = true
  <-> ~ In (CharT_of (T := char_t) "*") (removelast (lit "c*d")).
Proof.
  apply (trailing_star_exact char_t case_insensitive
           (lit "a?") (lit "Ab") (lit "c*d")).
  repeat constructor.
Defined.

(** X11. On a subject without [*], a leading [*] of the pattern matches
    exactly when the rest of the pattern matches some tail of the subject. *)
Theorem leading_star_some_tail (T : CharT) (cs : case_sensitivity_tag)
    (p s : list Z) :
  ~ In (CharT_of "*") s ->
  (glob cs (CharT_of "*" :: p) s = true
   <-> exists s1 s2, s = s1 ++ s2 /\ glob cs p s2 = true).
Proof.
  induction s as [| x s IH]; intros Hs.
  - rewrite glob_cons_nil, Z.eqb_refl. split.
    + intros H. now exists [], [].
    + intros (s1 & s2 & E & H). symmetry in E.
      apply app_eq_nil in E as [_ ->]. exact H.
  - assert (Hx : x <> CharT_of "*") by (intros ->; apply Hs; now left).
    assert (Hs' : ~ In (CharT_of "*") s)
      by (intros Hin; apply Hs; now right).
    rewrite glob_star_cons, orb_true_iff, (IH Hs') by assumption. split.
    + intros [H | (s1 & s2 & -> & H)].
      * now exists [], (x :: s).
      * now exists (x :: s1), s2.
    + intros ([| y s1] & s2 & E & H); simpl in E.
      * left. now rewrite E.
      * right. injection E as _ ->. now exists s1, s2.
Qed.

Lemma leading_star_some_tail_witness :
  glob (T := char_t) case_sensitive
    (CharT_of (T := char_t) "*" :: lit "c") (lit "abc") = true
  <-> exists s1 s2,
        lit "abc" = s1 ++ s2
        /\ glob (T := char_t) case_sensitive (lit "c") s2 = true.
Proof.
  apply (leading_star_some_tail char_t case_sensitive (lit "c") (lit "abc")).
  vm_compute. intuition discriminate.
Defined.

(** X12. On a subject without [*], two stars in a row do what one does. *)
Theorem adjacent_stars_collapse (T : CharT) (cs : case_sensitivity_tag)
    (p s : list Z) :
  ~ In (CharT_of "*") s ->
  glob cs (CharT_of "*" :: CharT_of "*" :: p) s
  = glob cs (CharT_of "*" :: p) s.
Proof.
  induction s as [| x s IH]; intros Hs.
  - now rewrite glob_cons_nil, Z.eqb_refl.
  - assert (Hx : x <> CharT_of "*") by (intros ->; apply Hs; now left).
    rewrite glob_star_cons by assumption.
    rewrite IH by (intros Hin; apply Hs; now right).
    rewrite (glob_star_cons cs x p s) by assumption.
    destruct (glob cs p (x :: s)), (glob cs (CharT_of "*" :: p) s);
      reflexivity.
Qed.

Lemma adjacent_stars_collapse_witness :
  glob (T := char_t) case_sensitive
    (CharT_of (T := char_t) "*" :: CharT_of (T := char_t) "*" :: lit "c")
    (lit "abc")
  = glob (T := char_t) case_sensitive
      (CharT_of (T := char_t) "*" :: lit "c") (lit "abc").
Proof.
  apply (adjacent_stars_collapse char_t case_sensitive (lit "c") (lit "abc")).
  vm_compute. intuition discriminate.
Defined.

(** Whatever [glob] accepts is matched in the sense of [wildcard_match]. *)
Lemma glob_wildcard_match (T : CharT) (cs : case_sensitivity_tag)
    (p s : list Z) :
  glob cs p s = true -> wildcard_match cs p s.
Proof.
  revert s. induction p as [| c p IHp]; intros s.
  - rewrite glob_nil. destruct s; [constructor | discriminate].
  - induction s as [| x s IHs].
    + rewrite glob_cons_nil.
      destruct (Z.eqb_spec c (CharT_of "*")) as [-> | _]; [| discriminate].
      intros H. now apply match_star_none, IHp.
    + rewrite glob_cons_cons.
      destruct (wildcard_comparator cs c x) eqn:E.
      * intros H%IHp.
        destruct (Z.eq_dec c (CharT_of "*")) as [-> | Hc].
        -- now apply match_star_more, match_star_none.
        -- now apply match_one.
      * destruct (Z.eqb_spec c (CharT_of "*")) as [-> | _]; [| discriminate].
        intros [H | H]%orb_true_iff.
        -- now apply match_star_none, IHp.
        -- now apply match_star_more, IHs.
Qed.

(** X13. [glob] accepts nothing that the pattern does not stand for: when it
    returns [true], the subject is matched in the sense of
    [wildcard_match], on every input. *)
Theorem glob_sound (T : CharT) (cs : case_sensitivity_tag) (p s : list Z) :
  glob cs p s = true -> wildcard_match cs p s.
Proof. apply glob_wildcard_match. Qed.

Lemma glob_sound_witness :
  wildcard_match (T := char_t) case_insensitive (lit "*.exe") (lit "a.EXE").
Proof.
  apply (glob_sound char_t case_insensitive (lit "*.exe") (lit "a.EXE")).
  reflexivity.
Defined.

(** X14. On a subject without [*], [glob] finds every match there is: what
    [wildcard_match] relates, it accepts. *)
Theorem glob_complete (T : CharT) (cs : case_sensitivity_tag) (p s : list Z) :
  ~ In (CharT_of "*") s -> wildcard_match cs p s -> glob cs p s = true.
Proof.
  intros Hs H. induction H as [| c x p s Hc Hcx _ IH | p s _ IH | x p s _ IH].
  - now rewrite glob_nil.
  - rewrite glob_cons_cons, Hcx. apply IH. intros Hin. apply Hs. now right.
  - specialize (IH Hs). destruct s as [| x s].
    + now rewrite glob_cons_nil, Z.eqb_refl.
    + rewrite glob_star_cons, IH; [reflexivity |].
      intros ->. apply Hs. now left.
  - rewrite glob_star_cons by (intros ->; apply Hs; now left).
    rewrite IH by (intros Hin; apply Hs; now right).
    apply orb_true_r.
Qed.

Lemma glob_complete_witness :
  glob (T := char_t) case_sensitive (lit "*b") (lit "ab") = true.
Proof.
  apply (glob_complete char_t case_sensitive (lit "*b") (lit "ab")).
  - vm_compute. intuition discriminate.
  - apply (match_star_more (T := char_t) case_sensitive (chr "a") (lit "b")
             (lit "b")).
    apply (match_star_none (T := char_t) case_sensitive (lit "b") (lit "b")).
    apply (match_one (T := char_t) case_sensitive (chr "b") (chr "b") [] []).
    + discriminate.
    + reflexivity.
    + constructor.
Defined.

(** ** The case of letters *)

Section CaseBlind.
Context {T : CharT}.

(** A character with its letter, if it is one, made small. *)
Local Abbreviation small x := (if is_alpha x%Z then to_lower x%Z else x%Z).
Local Abbreviation smalls := (map (fun x : Z => small x)).
Local Abbreviation cmp := (wildcard_comparator case_insensitive).

Lemma to_lower_to_lower (x : Z) : to_lower (to_lower x) = to_lower x.
Proof. rewrite !to_lower_eq. now rewrite <- Z.lor_assoc, Z.lor_diag. Qed.

Lemma is_alpha_to_lower (x : Z) : is_alpha (to_lower x) = is_alpha x.
Proof. unfold is_alpha. now rewrite to_lower_to_lower. Qed.

Lemma to_lower_small (x : Z) : to_lower (small x) = to_lower x.
Proof. destruct (is_alpha x); [apply to_lower_to_lower | reflexivity]. Qed.

Lemma is_alpha_small (x : Z) : is_alpha (small x) = is_alpha x.
Proof.
  destruct (is_alpha x) eqn:E; [| exact E]. now rewrite is_alpha_to_lower.
Qed.

(** Making letters small neither makes nor unmakes a character that is no
    letter: a [?], a [.], a [*]. *)
Lemma small_eqb (x k : Z) :
  is_alpha k = false -> (small x =? k) = (x =? k).
Proof.
  intros Hk. destruct (is_alpha x) eqn:E; [| reflexivity].
  destruct (Z.eqb_spec x k) as [-> | _]; [congruence |].
  apply Z.eqb_neq. intros H.
  rewrite <- is_alpha_to_lower, H in E. congruence.
Qed.

Lemma eqb_small (x k : Z) :
  is_alpha k = false -> (k =? small x) = (k =? x).
Proof. intros Hk. rewrite !(Z.eqb_sym k). now apply small_eqb. Qed.

Lemma is_alpha_mark (c : ascii) :
  chr c < 128 -> (97 <=? Z.lor (chr c) 32) && (Z.lor (chr c) 32 <=? 122) = false ->
  is_alpha (CharT_of c) = false.
Proof.
  intros Hc H. rewrite CharT_of_ascii by assumption.
  rewrite is_alpha_eq; [exact H |].
  apply ascii_in_range. split; [apply N2Z.is_nonneg | exact Hc].
Qed.

Lemma wildcard_comparator_small_subject (c x : Z) :
  cmp c (small x) = cmp c x.
Proof.
  unfold wildcard_comparator. cbn [value case_insensitive].
  rewrite small_eqb by now apply is_alpha_mark.
  destruct (c =? CharT_of "?"); [reflexivity |].
  rewrite is_alpha_small, to_lower_small.
  destruct (is_alpha x) eqn:Ex; [| reflexivity].
  destruct (Z.eqb_spec c (to_lower x)) as [E' | _].
  - rewrite E', is_alpha_to_lower, Ex, to_lower_to_lower, Z.eqb_refl.
    now destruct (to_lower x =? x).
  - destruct (Z.eqb_spec c x) as [E | _]; [| reflexivity].
    now rewrite E, Ex, Z.eqb_refl.
Qed.

Lemma wildcard_comparator_small_pattern (c x : Z) :
  cmp (small c) x = cmp c x.
Proof.
  unfold wildcard_comparator. cbn [value case_insensitive].
  rewrite small_eqb by now apply is_alpha_mark.
  destruct (c =? CharT_of "?"); [reflexivity |].
  rewrite is_alpha_small, to_lower_small.
  destruct (is_alpha c) eqn:Ec; [| reflexivity].
  destruct (Z.eqb_spec (to_lower c) x) as [E' | _].
  - rewrite <- E', is_alpha_to_lower, Ec, to_lower_to_lower, Z.eqb_refl.
    now destruct (c =? to_lower c).
  - destruct (Z.eqb_spec c x) as [E | _]; [| reflexivity].
    now rewrite <- E, Ec, Z.eqb_refl.
Qed.

Lemma glob_small_subject (p s : list Z) :
  glob case_insensitive p (smalls s) = glob case_insensitive p s.
Proof.
  revert s. induction p as [| c p IHp]; intros s.
  - rewrite !glob_nil. now destruct s.
  - induction s as [| x s IHs]; [reflexivity |].
    cbn [map]. rewrite !glob_cons_cons, wildcard_comparator_small_subject.
    rewrite IHs, (IHp s). now rewrite <- (IHp (x :: s)).
Qed.

Lemma glob_small_pattern (p s : list Z) :
  glob case_insensitive (smalls p) s = glob case_insensitive p s.
Proof.
  revert s. induction p as [| c p IHp]; intros s; [reflexivity |].
  induction s as [| x s IHs]; cbn [map] in *.
  - rewrite !glob_cons_nil, IHp. now rewrite small_eqb by apply is_alpha_star.
  - rewrite !glob_cons_cons, wildcard_comparator_small_pattern.
    rewrite small_eqb by apply is_alpha_star. now rewrite IHs, !IHp.
Qed.
End CaseBlind.

(** X15. Case-insensitive matching does not see the case of letters:
    making every letter of the pattern, of the subject, or of both small
    leaves the answer as it is.  Characters that are no letters are left
    alone. *)
Theorem glob_case_blind (T : CharT) (p s : list Z) :
  let small := fun x : Z => if is_alpha x then to_lower x else x in
  glob case_insensitive (map small p) s = glob case_insensitive p s
  /\ glob case_insensitive p (map small s) = glob case_insensitive p s
  /\ glob case_insensitive (map small p) (map small s)
     = glob case_insensitive p s.
Proof.
  intros small. split; [| split].
  - apply glob_small_pattern.
  - apply glob_small_subject.
  - unfold small. now rewrite glob_small_pattern, glob_small_subject.
Qed.

(** ** Character types and views *)

(** X16. On 7-bit text the instantiations of [glob] for any two character
    types, narrow or wide, signed or not, return the same answer. *)
Theorem glob_any_char_type (T T' : CharT) (cs : case_sensitivity_tag)
    (p s : list Z) :
  Forall (fun c => 0 <= c < 128) p -> Forall (fun c => 0 <= c < 128) s ->
  glob (T := T) cs p s = glob (T := T') cs p s.
Proof.
  assert (H : forall l, Forall (fun c => 0 <= c < 128) l ->
                        forallb is_ascii l = true).
  { intros l Hl. apply forallb_forall. rewrite Forall_forall in Hl.
    intros c Hc%Hl. unfold is_ascii.
    apply andb_true_iff. rewrite Z.leb_le, Z.ltb_lt. exact Hc. }
  intros Hp%H Hs%H. now apply glob_char_type.
Qed.

Lemma glob_any_char_type_witness :
  glob (T := char16_t) case_insensitive (lit "*.exe") (lit "a.EXE")
  = glob (T := char_t) case_insensitive (lit "*.exe") (lit "a.EXE").
Proof.
  apply (glob_any_char_type char16_t char_t case_insensitive
           (lit "*.exe") (lit "a.EXE"));
    repeat constructor; vm_compute; discriminate.
Defined.

Lemma c_str_view_null (s t : list Z) :
  ~ In 0 s -> c_str_view (s ++ 0 :: t) = s.
Proof.
  induction s as [| c s IH]; intros Hs; simpl.
  - reflexivity.
  - destruct (Z.eqb_spec c 0) as [-> | _].
    + exfalso. apply Hs. now left.
    + f_equal. apply IH. intros Hin. apply Hs. now right.
Qed.

(** X17. What the entry points read of a character array.  The generic
    overload reads it up to its first null character, whatever follows;
    [glob_match] reads the array of its [fixed_string] up to its last
    element, which it leaves out whatever it is, null characters before it
    included. *)
Theorem array_views (T : CharT) (cs : case_sensitivity_tag)
    (s t subject : list Z) (e : Z) :
  ~ In 0 s ->
  glob_any cs {| array_elems := s ++ 0 :: t |} subject = glob cs s subject
  /\ glob_match (fixed_string_of {| array_elems := s ++ 0 :: t ++ [e] |})
       cs subject
     = glob cs (s ++ 0 :: t) subject.
Proof.
  intros Hs. split.
  - unfold glob_any, glob_view. cbn [to_string_view char_array_viewable].
    cbn [array_elems]. now rewrite c_str_view_null.
  - unfold glob_match, glob_view, fixed_to_view, fixed_size.
    cbn [fixed_string_of fixed_elems array_elems].
    replace (s ++ 0 :: t ++ [e]) with ((s ++ 0 :: t) ++ [e])
      by now rewrite <- app_assoc.
    rewrite length_app. cbn [List.length].
    rewrite Nat.add_sub.
    rewrite firstn_app, Nat.sub_diag, firstn_all. cbn [firstn].
    now rewrite app_nil_r.
Qed.

Lemma array_views_witness :
  glob_any (T := char_t) case_sensitive
    {| array_elems := lit "ab" ++ 0 :: lit "c" |} (lit "ab")
  = glob (T := char_t) case_sensitive (lit "ab") (lit "ab")
  /\ glob_match (T := char_t)
       (fixed_string_of {| array_elems := lit "ab" ++ 0 :: lit "c" ++ [0] |})
       case_sensitive (lit "ab")
     = glob (T := char_t) case_sensitive (lit "ab" ++ 0 :: lit "c") (lit "ab").
Proof.
  apply (array_views char_t case_sensitive (lit "ab") (lit "c") (lit "ab") 0).
  vm_compute. intuition discriminate.
Defined.

(** ** Anchors *)

Section Anchors.
Context {T : CharT}.
Variable cs : case_sensitivity_tag.

Local Abbreviation accepted :=
  (Forall2 (fun c x => wildcard_comparator cs c x = true)).

Lemma wildcard_match_star_free (q s : list Z) :
  ~ In (CharT_of "*") q -> wildcard_match cs q s -> accepted q s.
Proof.
  intros Hq H.
  induction H as [| c x p s Hc Hcx _ IH | p s _ _ | x p s _ _].
  - constructor.
  - constructor; [exact Hcx |]. apply IH. intros Hin. apply Hq. now right.
  - exfalso. apply Hq. now left.
  - exfalso. apply Hq. now left.
Qed.

Lemma wildcard_match_suffix (pq s : list Z) :
  wildcard_match cs pq s ->
  forall p q, pq = p ++ q -> ~ In (CharT_of "*") q ->
  exists s1 s2, s = s1 ++ s2 /\ accepted q s2.
Proof.
  intros H.
  induction H as [| c x p0 s0 Hc Hcx H IH | p0 s0 H IH | x p0 s0 H IH];
    intros p q E Hq.
  - symmetry in E. apply app_eq_nil in E as [_ ->]. exists [], [].
    split; [reflexivity | constructor].
  - destruct p as [| c' p']; simpl in E.
    + subst q. exists [], (x :: s0). split; [reflexivity |].
      apply wildcard_match_star_free; [assumption |]. now constructor.
    + injection E as _ E. destruct (IH p' q E Hq) as (s1 & s2 & -> & Hs2).
      now exists (x :: s1), s2.
  - destruct p as [| c' p']; simpl in E.
    + subst q. exfalso. apply Hq. now left.
    + injection E as _ E. exact (IH p' q E Hq).
  - destruct p as [| c' p']; simpl in E.
    + subst q. exfalso. apply Hq. now left.
    + destruct (IH (c' :: p') q E Hq) as (s1 & s2 & -> & Hs2).
      now exists (x :: s1), s2.
Qed.
End Anchors.

(** X18. The scan never goes back on a pair it has accepted: an accepted
    prefix of pattern and subject can be dropped from both. *)
Theorem glob_accepted_prefix (T : CharT) (cs : case_sensitivity_tag)
    (P S p s : list Z) :
  Forall2 (fun c x => wildcard_comparator cs c x = true) P S ->
  glob cs (P ++ p) (S ++ s) = glob cs p s.
Proof.
  intros HP.
  destruct (mismatch (wildcard_comparator cs) p s) as [p' s'] eqn:Em.
  rewrite (glob_mismatch cs p s p' s' Em).
  apply glob_mismatch. now rewrite mismatch_app.
Qed.

Lemma glob_accepted_prefix_witness :
  glob (T := char_t) case_insensitive (lit "a?" ++ lit "*c") (lit "Ab" ++ lit "c")
  = glob (T := char_t) case_insensitive (lit "*c") (lit "c").
Proof.
  apply (glob_accepted_prefix char_t case_insensitive
           (lit "a?") (lit "Ab") (lit "*c") (lit "c")).
  repeat constructor.
Defined.

(** X19. A pattern that ends in a part without [*] only matches subjects
    that end in something this part accepts position by position: ["*.exe"]
    only matches what ends in [.exe], up to the case mode. *)
Theorem glob_suffix_anchor (T : CharT) (cs : case_sensitivity_tag)
    (p q s : list Z) :
  ~ In (CharT_of "*") q ->
  glob cs (p ++ q) s = true ->
  exists s1 s2,
    s = s1 ++ s2
    /\ Forall2 (fun c x => wildcard_comparator cs c x = true) q s2.
Proof.
  intros Hq H%glob_wildcard_match.
  now apply (wildcard_match_suffix cs (p ++ q) s H p q).
Qed.

Lemma glob_suffix_anchor_witness :
  exists s1 s2,
    lit "a.EXE" = s1 ++ s2
    /\ Forall2
         (fun c x =>
            wildcard_comparator (T := char_t) case_insensitive c x = true)
         (lit ".exe") s2.
Proof.
  apply (glob_suffix_anchor char_t case_insensitive
           (lit "*") (lit ".exe") (lit "a.EXE")).
  - vm_compute. intuition discriminate.
  - reflexivity.
Defined.

(** X20. A pattern that begins with a part without [*] only matches
    subjects that begin with something this part accepts position by
    position, and then it matches as the rest of the pattern matches the
    rest of the subject. *)
Theorem glob_prefix_anchor (T : CharT) (cs : case_sensitivity_tag)
    (q p s : list Z) :
  ~ In (CharT_of "*") q ->
  glob cs (q ++ p) s = true ->
  exists s1 s2,
    s = s1 ++ s2
    /\ Forall2 (fun c x => wildcard_comparator cs c x = true) q s1
    /\ glob cs p s2 = true.
Proof.
  revert s. induction q as [| c q IH]; intros s Hq H.
  - exists [], s. repeat split; [constructor | exact H].
  - assert (Hc : (c =? CharT_of "*") = false).
    { apply Z.eqb_neq. intros ->. apply Hq. now left. }
    simpl in H. destruct s as [| x s].
    + rewrite glob_cons_nil, Hc in H. discriminate.
    + rewrite glob_cons_cons, Hc in H.
      destruct (wildcard_comparator cs c x) eqn:E; [| discriminate].
      destruct (IH s) as (s1 & s2 & -> & H1 & H2);
        [intros Hin; apply Hq; now right | exact H |].
      exists (x :: s1), s2. repeat split; [now constructor | exact H2].
Qed.

Lemma glob_prefix_anchor_witness :
  exists s1 s2,
    lit "ver92.txt" = s1 ++ s2
    /\ Forall2
         (fun c x =>
            wildcard_comparator (T := char_t) case_insensitive c x = true)
         (lit "ver??") s1
    /\ glob (T := char_t) case_insensitive (lit "*") s2 = true.
Proof.
  apply (glob_prefix_anchor char_t case_insensitive
           (lit "ver??") (lit "*") (lit "ver92.txt")).
  - vm_compute. intuition discriminate.
  - reflexivity.
Defined.

(** ** Backtracking over several stars *)

(** On a subject without [*], whatever [wildcard_match] relates is
    accepted. *)
Lemma wildcard_match_glob (T : CharT) (cs : case_sensitivity_tag)
    (p s : list Z) :
  ~ In (CharT_of "*") s -> wildcard_match cs p s -> glob cs p s = true.
Proof.
  intros Hs H. induction H as [| c x p s Hc Hcx _ IH | p s _ IH | x p s _ IH].
  - now rewrite glob_nil.
  - rewrite glob_cons_cons, Hcx. apply IH. intros Hin. apply Hs. now right.
  - specialize (IH Hs). destruct s as [| x s].
    + now rewrite glob_cons_nil, Z.eqb_refl.
    + rewrite glob_star_cons, IH; [reflexivity |].
      intros ->. apply Hs. now left.
  - rewrite glob_star_cons by (intros ->; apply Hs; now left).
    rewrite IH by (intros Hin; apply Hs; now right).
    apply orb_true_r.
Qed.

(** The subject ["a*xbxc"] is matched by ["a*b*c"]: the first star stands
    for ["*x"], the second for ["x"]. *)
Lemma wildcard_match_star_in_subject (T : CharT) (cs : case_sensitivity_tag) :
  wildcard_match cs (lit "a*b*c") (lit "a*xbxc").
Proof.
  assert (E : CharT_of "*" = 42) by now apply CharT_of_ascii.
  assert (Hne : forall c, c <> 42 -> c <> CharT_of "*") by (intros; congruence).
  change (lit "a*b*c") with [97; 42; 98; 42; 99].
  change (lit "a*xbxc") with [97; 42; 120; 98; 120; 99].
  apply match_one;
    [now apply Hne | apply wildcard_comparator_refl |].
  rewrite <- E at 1. apply match_star_more, match_star_more, match_star_none.
  apply match_one;
    [now apply Hne | apply wildcard_comparator_refl |].
  rewrite <- E at 1. apply match_star_more, match_star_none.
  apply match_one;
    [now apply Hne | apply wildcard_comparator_refl |].
  constructor.
Qed.

(** C6. Backtracking over several stars.  ["a*b*c"] matches ["axxxbxxc"]
    and rejects ["axxxxxxc"], in which there is no [b].  In general [glob]
    accepts only subjects in which the pattern's characters can be placed
    between runs that the stars stand for, and on a subject without [*] it
    finds every such placing.  It does not find them all on a subject with
    a [*]: ["a*xbxc"] is ["a"], ["*x"], ["b"], ["x"], ["c"] and is matched by
    ["a*b*c"], yet [glob] rejects it, the pattern's first star being used up
    against the subject's star as a literal. *)
Theorem backtracking_across_stars (T : CharT) :
  glob case_sensitive (lit "a*b*c") (lit "axxxbxxc") = true
  /\ glob case_sensitive (lit "a*b*c") (lit "axxxxxxc") = false
  /\ (forall cs p s, glob cs p s = true -> wildcard_match cs p s)
  /\ (forall cs p s,
        ~ In (CharT_of "*") s -> wildcard_match cs p s -> glob cs p s = true)
  /\ lit "a*xbxc" = lit "a" ++ lit "*x" ++ lit "b" ++ lit "x" ++ lit "c"
  /\ (forall cs, wildcard_match cs (lit "a*b*c") (lit "a*xbxc"))
  /\ (forall cs, glob cs (lit "a*b*c") (lit "a*xbxc") = false).
Proof.
  split; [on_char |]. split; [on_char |].
  split; [intros cs p s; apply glob_wildcard_match |].
  split; [intros cs p s; apply wildcard_match_glob |].
  split; [reflexivity |].
  split; [intros cs; apply wildcard_match_star_in_subject |].
  intros [[|]]; on_char.
Qed.

Lemma backtracking_across_stars_witness :
  wildcard_match (T := char_t) case_sensitive (lit "a*b*c") (lit "axxxbxxc")
  /\ glob (T := char_t) case_sensitive (lit "a*b*c") (lit "axxxbxxc") = true.
Proof.
  assert (H : wildcard_match (T := char_t) case_sensitive
                (lit "a*b*c") (lit "axxxbxxc")).
  { apply (proj1 (proj2 (proj2 (backtracking_across_stars char_t)))).
    reflexivity. }
  split; [exact H |].
  apply (proj1 (proj2 (proj2 (proj2 (backtracking_across_stars char_t))))).
  - vm_compute. intuition discriminate.
  - exact H.
Defined.
